(** * fix_protos.py: the one-shot rewriter of strategyService.ts

    A shallow embedding of [apiserver/fix_protos.py].  The script reads one
    file into [content], binds a table of regular-expression rules to
    [fixes], performs one literal [str.replace] on [content], writes
    [content] back and prints a notice.

    Text is a list of characters.  Decoding and newline translation of
    Python's text mode sit below this model: a file's data is the [str]
    that [f.read()] returns and that [f.write] receives. *)

From stdpp Require Import gmap strings list fin_maps.
From Stdlib Require Import Ascii.

Set Default Proof Using "Type".

Abbreviation text := (list ascii).

(** Literals of the source are written as Rocq strings; [LF] is the
    newline escape and [DQ] the double quote of the Python literals. *)
Definition T (s : string) : text := String.list_ascii_of_string s.
Definition LF : text := [ascii_of_nat 10].
Definition DQ : text := [ascii_of_nat 34].

(** ** Python's [str] operations used by the script *)

Module Str.

(** [s.startswith(p)] *)
Fixpoint starts_with (p s : text) : bool :=
  match p, s with
  | [], _ => true
  | _ :: _, [] => false
  | a :: p', c :: s' => if decide (a = c) then starts_with p' s' else false
  end.

(** The scan of [s.replace(old, new)] for a non-empty [old]: left to right,
    every match found is replaced and the scan resumes after it.  [skip] is
    the number of characters of the current match still to be consumed. *)
Fixpoint replace_go (old new : text) (skip : nat) (s : text) : text :=
  match s with
  | [] => []
  | c :: s' =>
      match skip with
      | S k => replace_go old new k s'
      | O =>
          if starts_with old s
          then new ++ replace_go old new (length old - 1) s'
          else c :: replace_go old new 0 s'
      end
  end.

(** [s.replace(old, new)]; with an empty [old] Python puts [new] before
    every character and at the end. *)
Definition replace (old new s : text) : text :=
  match old with
  | [] => new ++ flat_map (fun c => c :: new) s
  | _ :: _ => replace_go old new 0 s
  end.

(** Number of positions of [s] at which [z] occurs. *)
Fixpoint occurrences (z s : text) : nat :=
  match s with
  | [] => 0
  | _ :: s' => (if starts_with z s then 1 else 0) + occurrences z s'
  end.

(** [sep.join(parts)] for a non-empty list of parts. *)
Fixpoint join (sep : text) (g : text) (gs : list text) : text :=
  match gs with
  | [] => g
  | g' :: gs' => g ++ sep ++ join sep g' gs'
  end.

End Str.

(** ** The rule table [fixes] (lines 9-48)

    Each entry pairs a pattern, kept as the source of the raw string
    literal, with a replacement: a template with back-references or a
    function of the match's groups. *)

Inductive replacement :=
| Template (tpl : text)
| Computed (fn : (nat → text) → text).

Record rule := Rule { pattern : text; repl : replacement }.

Definition fixes : list rule :=
  [ Rule (T "(\s+)(return \{ strategy \};)(\s+\}[\s,]+async updateStrategyPrivacy)")
         (Template (T "\1return create(UpdateStrategyPrivacyResponseSchema, { strategy });\3"));
    Rule (T "(async sendOTP[\s\S]*?)(return \{[\s\n]+success: (true|false),[\s\n]+message: ([^}]+)\};)")
         (Computed (fun group =>
            group 1 ++ T "return create(SendOTPResponseSchema, { success: " ++ group 3
                    ++ T ", message: " ++ group 4 ++ T "});"));
    Rule (T "return \{ user: (protoUser|undefined) \};(?=[\s\S]*?async updateUser)")
         (Template (T "return create(GetCurrentUserResponseSchema, { user: \1 });"));
    Rule (T "return \{ user: protoUser \};(?=[\s\S]*?async followUser)")
         (Template (T "return create(UpdateUserResponseSchema, { user: protoUser });"));
    Rule (T "return \{ success: true \};(?=[\s\S]*?async unfollowUser)")
         (Template (T "return create(FollowUserResponseSchema, { success: true });"));
    Rule (T "return \{ success: true \};(?=[\s\S]*?async listFollowing)")
         (Template (T "return create(UnfollowUserResponseSchema, { success: true });"));
    Rule (T "return \{ users \};(?=[\s\S]*?async listFollowers)")
         (Template (T "return create(ListFollowingResponseSchema, { users });"));
    Rule (T "return \{ users \};(?=[\s\S]*?async listCloseFriends)")
         (Template (T "return create(ListFollowersResponseSchema, { users });"));
    Rule (T "return \{ users \};(?=[\s\S]*?async getUserProfile)")
         (Template (T "return create(ListCloseFriendsResponseSchema, { users });"));
    Rule (T "return \{ strategy \};(?=[\s\S]*?^\};$)")
         (Template (T "return create(CopyStrategyResponseSchema, { strategy });")) ].

(** ** The literal replacement (lines 51-54) *)

Definition old_snippet : text :=
  T "return { strategy };" ++ LF ++ T "  }," ++ LF ++ LF
    ++ T "  async updateStrategyPrivacy(".

Definition new_snippet : text :=
  T "return create(UpdateStrategyPrivacyResponseSchema, { strategy });" ++ LF
    ++ T "  }," ++ LF ++ LF ++ T "  async updateStrategyPrivacy(".

(** [content = content.replace(old, new)] *)
Definition transform (content : text) : text :=
  Str.replace old_snippet new_snippet content.

(** ** The process and its environment *)

Inductive exception :=
| FileNotFoundError
| PermissionError.

(** Both are subclasses of [OSError], of which [IOError] is an alias. *)
Definition is_IOError (e : exception) : bool :=
  match e with
  | FileNotFoundError | PermissionError => true
  end.

Record file := File { readable : bool; writable : bool; data : text }.

Record world := World {
  fs : gmap string file;
  stdout : text;
  stderr : text;
  argv : list string;
  environ : gmap string string
}.

Inductive outcome (A : Type) :=
| Done (a : A)
| Raised (e : exception).
Arguments Done {A} a.
Arguments Raised {A} e.

(** A statement runs in a world and either completes or raises; the world
    it leaves behind is kept in both cases. *)
Definition M (A : Type) : Type := world → outcome A * world.

Definition ret {A} (a : A) : M A := fun w => (Done a, w).
Definition raise {A} (e : exception) : M A := fun w => (Raised e, w).
Definition bind {A B} (m : M A) (k : A → M B) : M B :=
  fun w =>
    match m w with
    | (Done a, w') => k a w'
    | (Raised e, w') => (Raised e, w')
    end.

Notation "'let!' x ':=' m 'in' k" := (bind m (fun x => k))
  (at level 10, x name, m at level 100, k at level 200).
Notation "'do!' m 'in' k" := (bind m (fun _ => k))
  (at level 10, m at level 100, k at level 200).

(** [with open(path, 'r') as f: f.read()] *)
Definition read_text (path : string) : M text :=
  fun w =>
    match fs w !! path with
    | None => (Raised FileNotFoundError, w)
    | Some f => if readable f then (Done (data f), w) else (Raised PermissionError, w)
    end.

Definition set_fs (m : gmap string file) (w : world) : world :=
  World m (stdout w) (stderr w) (argv w) (environ w).

(** [with open(path, 'w') as f: f.write(s)]: an existing file is
    overwritten and keeps its mode; a missing one is created. *)
Definition write_text (path : string) (s : text) : M unit :=
  fun w =>
    match fs w !! path with
    | None => (Done tt, set_fs (<[path := File true true s]> (fs w)) w)
    | Some f =>
        if writable f
        then (Done tt, set_fs (<[path := File (readable f) (writable f) s]> (fs w)) w)
        else (Raised PermissionError, w)
    end.

(** [print(s)] *)
Definition print (s : text) : M unit :=
  fun w => (Done tt, World (fs w) (stdout w ++ s ++ LF) (stderr w) (argv w) (environ w)).

Definition target : string :=
  "/Users/daronmcintosh/repos/stockpicker/apiserver/src/services/strategyService.ts".

Definition notice : text := T "Fixed strategyService.ts".

(** The script.  The table bound to [fixes] is a parameter, so that the
    table's influence on a run can be stated; [main] binds the table of
    the source. *)
Definition script (table : list rule) : M unit :=
  let! content := read_text target in
  let fixes := table in
  let content := Str.replace old_snippet new_snippet content in
  do! write_text target content in
  print notice.

Definition main : M unit := script fixes.

(** ** Vocabulary of the statements *)

(** No non-empty tail of [a] is a head of [b]: an occurrence of [b] never
    begins inside [a] and runs to or past its end. *)
Definition no_overlap (a b : text) : Prop :=
  ∀ k, k < length a → Str.starts_with (drop k a) b = false.

Definition no_overlapb (a b : text) : bool :=
  forallb (fun k => negb (Str.starts_with (drop k a) b)) (seq 0 (length a)).

Definition free_of (z s : text) : Prop := Str.occurrences z s = 0.

(** "[out] is [t] with every occurrence of [old] replaced by [new]":
    [t] is cut at occurrences of [old] into pieces that hold no further
    occurrence, and [out] joins the same pieces with [new]. *)
Definition replaces_every (old new t out : text) : Prop :=
  ∃ g gs, t = Str.join old g gs ∧ out = Str.join new g gs
          ∧ Forall (free_of old) (g :: gs).

(** The text the run leaves in the target file, if any. *)
Definition written (r : outcome unit * world) : option text :=
  data <$> fs (r.2) !! target.

(** The marker by which the rewritten returns are counted. *)
Definition create_call : text := T "return create(".

(** How many rules of the table have a match in [t], for a given notion
    of a pattern matching a text. *)
Definition rules_matched (has_match : rule → text → bool) (t : text) : nat :=
  length (filter (fun r => has_match r t = true) fixes).

(** A world whose target file is readable, writable and holds [t]. *)
Definition world_of (t : text) : world :=
  World {[ target := File true true t ]} [] [] [] ∅.

(** The world a successful run leaves when started in [world_of t]. *)
Definition world_after (t : text) : world :=
  World {[ target := File true true (transform t) ]} (notice ++ LF) [] [] ∅.

(** A world without the target file. *)
Definition empty_world : world := World ∅ [] [] [] ∅.

(** ** Sample texts *)

Definition getCurrentUser_text : text :=
  T "  async getCurrentUser() {" ++ LF
    ++ T "    return { user: protoUser };" ++ LF
    ++ T "  }," ++ LF ++ LF
    ++ T "  async updateUser(" .

Definition getCurrentUser_fixed : text :=
  T "return create(GetCurrentUserResponseSchema, { user: protoUser });".

Definition sendOTP_text : text :=
  T "  async sendOTP(req) {" ++ LF
    ++ T "    return {" ++ LF
    ++ T "  success: true," ++ LF
    ++ T "  message: " ++ DQ ++ T "ok" ++ DQ ++ T "};" ++ LF
    ++ T "  },".

Definition sendOTP_fixed : text :=
  T "return create(SendOTPResponseSchema, { success: true, message: "
    ++ DQ ++ T "ok" ++ DQ ++ T "});".

Definition users_text : text :=
  T "  async listFollowing() {" ++ LF
    ++ T "    return { users };" ++ LF
    ++ T "  }," ++ LF
    ++ T "  async listFollowers() {" ++ LF
    ++ T "  }," ++ LF
    ++ T "  async listCloseFriends() {" ++ LF
    ++ T "    return { users };" ++ LF
    ++ T "  }," ++ LF
    ++ T "  async getUserProfile(".

Definition listFollowing_fixed : text :=
  T "return create(ListFollowingResponseSchema, { users });".

Definition listCloseFriends_fixed : text :=
  T "create(ListCloseFriendsResponseSchema, ".

Definition eleven_calls : text := mjoin (replicate 11 create_call).

Definition plain_text : text := T "export const strategyService = {};" ++ LF.

Definition privacy_text : text :=
  T "    " ++ old_snippet ++ T "req) {" ++ LF.


(** Number of occurrences of one character. *)
Definition count_char (c : ascii) (s : text) : nat := Str.occurrences [c] s.

(** * Properties of the string operations *)

Section starts_with.
Implicit Types p s r w a : text.

Lemma starts_with_app p s : Str.starts_with p (p ++ s) = true.
Proof. induction p as [|c p IH]; simpl; [done|]. by rewrite decide_True. Qed.

Lemma starts_with_split p s :
  Str.starts_with p s = true → s = p ++ drop (length p) s.
Proof.
  revert s; induction p as [|c p IH]; intros [|d s]; simpl; try done.
  case_decide; [|done]. intros Hp; subst. f_equal. by apply IH.
Qed.

Lemma starts_with_prefix p s : Str.starts_with p s = true ↔ p `prefix_of` s.
Proof.
  split.
  - intros H. exists (drop (length p) s). by apply starts_with_split.
  - intros [k ->]. apply starts_with_app.
Qed.

Lemma starts_with_length p s : Str.starts_with p s = true → length p ≤ length s.
Proof. rewrite starts_with_prefix. apply prefix_length. Qed.

Lemma starts_with_app_l p s r :
  Str.starts_with p s = true → Str.starts_with p (s ++ r) = true.
Proof. rewrite !starts_with_prefix. apply prefix_app_r. Qed.

(** A word found at the head of [a ++ s] lies within [a], or [a] is a
    shorter head of the word. *)
Lemma starts_with_app_cases w a s :
  Str.starts_with w (a ++ s) = true →
  Str.starts_with w a = true ∨ (Str.starts_with a w = true ∧ length a < length w).
Proof.
  revert a; induction w as [|c w IH]; intros [|d a]; simpl; auto.
  - intros _. right. split; [done | lia].
  - case_decide; [subst d|done]. intros Hw.
    destruct (IH _ Hw) as [?|[? ?]]; [by left|].
    right. rewrite decide_True by done. split; [done | lia].
Qed.

Lemma starts_with_short w a s :
  length w ≤ length a →
  Str.starts_with w (a ++ s) = Str.starts_with w a.
Proof.
  intros Hl. destruct (Str.starts_with w a) eqn:E.
  - by apply starts_with_app_l.
  - destruct (Str.starts_with w (a ++ s)) eqn:E'; [|done].
    destruct (starts_with_app_cases _ _ _ E') as [?|[_ ?]]; [congruence | lia].
Qed.
End starts_with.

Section replace.
Implicit Types old new s t g : text.

Lemma replace_go_drop old new k s :
  Str.replace_go old new k s = Str.replace_go old new 0 (drop k s).
Proof. revert k; induction s as [|c s IH]; intros [|k]; simpl; auto. Qed.

Lemma replace_nil old new : old ≠ [] → Str.replace old new [] = [].
Proof. unfold Str.replace. by destruct old. Qed.

Lemma replace_hit old new s :
  old ≠ [] → Str.replace old new (old ++ s) = new ++ Str.replace old new s.
Proof.
  intros Hne. unfold Str.replace. destruct old as [|a o]; [done|].
  change ((a :: o) ++ s) with (a :: (o ++ s)). cbn [Str.replace_go].
  change (a :: (o ++ s)) with ((a :: o) ++ s). rewrite starts_with_app.
  rewrite replace_go_drop.
  replace (length (a :: o) - 1) with (length o) by (simpl; lia).
  by rewrite drop_app_length.
Qed.

Lemma replace_miss old new c s :
  old ≠ [] →
  Str.starts_with old (c :: s) = false →
  Str.replace old new (c :: s) = c :: Str.replace old new s.
Proof.
  intros Hne H. unfold Str.replace. destruct old as [|a o]; [done|].
  cbn [Str.replace_go]. by rewrite H.
Qed.

(** Induction along the scan: at each position the scan either consumes
    a match of [old] or passes one character. *)
Lemma scan_ind old (P : text → Prop) :
  old ≠ [] →
  P [] →
  (∀ s, P s → P (old ++ s)) →
  (∀ c s, Str.starts_with old (c :: s) = false → P s → P (c :: s)) →
  ∀ s, P s.
Proof.
  intros Hne Hnil Hhit Hmiss s.
  remember (length s) as n eqn:Hn. revert s Hn.
  induction n as [n IH] using lt_wf_ind. intros [|c s] Hn; [done|].
  destruct (Str.starts_with old (c :: s)) eqn:E.
  - rewrite (starts_with_split _ _ E). apply Hhit.
    apply (IH (length (drop (length old) (c :: s)))); [|done].
    rewrite length_drop. subst n. destruct old; [done | simpl; lia].
  - apply Hmiss; [done|]. apply (IH (length s)); [subst n; simpl; lia | done].
Qed.
End replace.

Section overlap.
Implicit Types a b z w s t o old new : text.

Lemma no_overlapb_sound a b : no_overlapb a b = true → no_overlap a b.
Proof.
  unfold no_overlapb, no_overlap. rewrite forallb_forall. intros H k Hk.
  apply negb_true_iff, H, in_seq. lia.
Qed.

Lemma no_overlap_tail c a b : no_overlap (c :: a) b → no_overlap a b.
Proof. intros H k Hk. apply (H (S k)). simpl. lia. Qed.

Lemma no_overlap_drop a b j k :
  no_overlap a b → j + k < length a → Str.starts_with (drop k (drop j a)) b = false.
Proof. intros H Hk. rewrite drop_drop. by apply H. Qed.

Lemma starts_with_past a z s :
  Str.starts_with a z = false → Str.starts_with z (a ++ s) = Str.starts_with z a.
Proof.
  intros Ha. destruct (Str.starts_with z a) eqn:E; [by apply starts_with_app_l|].
  destruct (Str.starts_with z (a ++ s)) eqn:E'; [|done].
  destruct (starts_with_app_cases _ _ _ E') as [?|[? _]]; congruence.
Qed.

Lemma occurrences_short z s : length s < length z → Str.occurrences z s = 0.
Proof.
  induction s as [|c s IH]; [done|]. intros Hl. cbn [Str.occurrences].
  rewrite IH by (simpl in Hl; lia).
  destruct (Str.starts_with z (c :: s)) eqn:E; [|done].
  apply starts_with_length in E. lia.
Qed.

(** Occurrences on both sides of a seam add up when none crosses it. *)
Lemma occurrences_app a z s :
  no_overlap a z →
  Str.occurrences z (a ++ s) = Str.occurrences z a + Str.occurrences z s.
Proof.
  induction a as [|c a IH]; [done|]. intros H.
  change ((c :: a) ++ s) with (c :: (a ++ s)). cbn [Str.occurrences].
  rewrite IH by by eapply no_overlap_tail.
  change (c :: (a ++ s)) with ((c :: a) ++ s).
  rewrite starts_with_past; [lia|]. apply (H 0). simpl. lia.
Qed.

Lemma occurrences_self (c : ascii) o s :
  no_overlap o (c :: o) →
  Str.occurrences (c :: o) ((c :: o) ++ s) = S (Str.occurrences (c :: o) s).
Proof.
  intros H. change ((c :: o) ++ s) with (c :: (o ++ s)). cbn [Str.occurrences].
  change (c :: (o ++ s)) with ((c :: o) ++ s).
  rewrite starts_with_app, occurrences_app by done.
  rewrite (occurrences_short (c :: o) o) by (simpl; lia). done.
Qed.
End overlap.

Section replace_theory.
Implicit Types z w s t g pre post old new : text.

(** A word that overlaps neither snippet is found at the head of the
    output exactly when it is at the head of the input; so are its tails. *)
Lemma replace_head_stable old new w :
  old ≠ [] →
  no_overlap w old → no_overlap w new →
  length w ≤ length old → length w ≤ length new →
  ∀ t j, Str.starts_with (drop j w) (Str.replace old new t)
         = Str.starts_with (drop j w) t.
Proof.
  intros Hne Ho Hn Hlo Hln.
  apply (scan_ind old (fun t => ∀ j, _ = _)); [done|..].
  - intros j. by rewrite replace_nil.
  - intros s _ j. rewrite replace_hit by done.
    destruct (decide (j < length w)) as [Hj|Hj].
    + rewrite !starts_with_short by (rewrite length_drop; lia).
      by rewrite Ho, Hn.
    + by rewrite drop_ge by lia.
  - intros c s Hmiss IH j. rewrite replace_miss by done.
    destruct (drop j w) as [|d r] eqn:E; [done|]. simpl.
    case_decide; [|done].
    assert (r = drop (S j) w) as ->; [|apply IH].
    change r with (drop 1 (d :: r)). rewrite <- E, drop_drop. f_equal. lia.
Qed.

Lemma replace_head_stable_cons old new z (c : ascii) t :
  old ≠ [] →
  no_overlap (tail z) old → no_overlap (tail z) new →
  length (tail z) ≤ length old → length (tail z) ≤ length new →
  Str.starts_with z (c :: Str.replace old new t) = Str.starts_with z (c :: t).
Proof.
  intros Hne Ho Hn Hlo Hln. destruct z as [|d z]; [done|]. simpl.
  case_decide; [|done].
  apply (replace_head_stable old new z Hne Ho Hn Hlo Hln t 0).
Qed.

(** A text that holds no occurrence is left as it is. *)
Lemma replace_free old new t :
  old ≠ [] → free_of old t → Str.replace old new t = t.
Proof.
  intros Hne. unfold free_of. induction t as [|c t IH]; [by rewrite replace_nil|].
  cbn [Str.occurrences]. destruct (Str.starts_with old (c :: t)) eqn:E; [done|].
  intros H. rewrite replace_miss, IH by done. done.
Qed.

(** After the scan no occurrence of [old] is left, provided [new] does
    not bring one about. *)
Lemma replace_removes old new :
  old ≠ [] →
  no_overlap (tail old) old → no_overlap (tail old) new →
  no_overlap new old → free_of old new →
  length old ≤ length new →
  ∀ t, free_of old (Str.replace old new t).
Proof.
  intros Hne Hoo Hon Hno Hfree Hlen. unfold free_of in *.
  apply scan_ind with (old := old); [done|..].
  - by rewrite replace_nil.
  - intros s IH. rewrite replace_hit, occurrences_app by done. lia.
  - intros c s Hmiss IH. rewrite replace_miss by done.
    cbn [Str.occurrences]. rewrite IH.
    rewrite replace_head_stable_cons, Hmiss; try done.
    + destruct old; simpl; lia.
    + destruct old; simpl in *; lia.
Qed.

Lemma replace_idempotent old new :
  old ≠ [] →
  no_overlap (tail old) old → no_overlap (tail old) new →
  no_overlap new old → free_of old new →
  length old ≤ length new →
  ∀ t, Str.replace old new (Str.replace old new t) = Str.replace old new t.
Proof. intros. apply replace_free; [done|]. by apply replace_removes. Qed.

(** An occurrence of a word without borders cannot begin inside another
    occurrence of it. *)
Lemma no_straddle old (c : ascii) s post :
  no_overlap (tail old) old →
  Str.starts_with old (c :: s) = false →
  Str.starts_with old ((c :: s) ++ old ++ post) = false.
Proof.
  intros Hb Hmiss.
  destruct (Str.starts_with old ((c :: s) ++ old ++ post)) eqn:E; [|done].
  destruct (starts_with_app_cases _ _ _ E) as [?|[Hp Hl]]; [congruence|].
  exfalso. pose proof (starts_with_split _ _ Hp) as Ho.
  pose proof (starts_with_split _ _ E) as Ht.
  rewrite Ho in Ht at 2. rewrite <- !app_assoc in Ht.
  apply app_inv_head in Ht.
  assert (Str.starts_with (drop (length (c :: s)) old) old = true) as Hr.
  { rewrite <- (starts_with_short _ old post) by (rewrite length_drop; lia).
    rewrite Ht. apply starts_with_app. }
  destruct old as [|a o]; [simpl in Hl; lia|].
  simpl in Hr, Hb, Hl. rewrite Hb in Hr by lia. done.
Qed.

(** An occurrence of [old] anywhere in the text has [new] in its place
    in the output, between the outputs for what precedes and follows. *)
Lemma replace_split old new :
  old ≠ [] → no_overlap (tail old) old →
  ∀ pre post,
    Str.replace old new (pre ++ old ++ post)
    = Str.replace old new pre ++ new ++ Str.replace old new post.
Proof.
  intros Hne Hb pre post. revert pre.
  apply scan_ind with (old := old); [done|..].
  - by rewrite replace_nil, app_nil_l, replace_hit.
  - intros s IH. rewrite <- !app_assoc, !replace_hit, IH by done.
    by rewrite <- !app_assoc.
  - intros c s Hmiss IH.
    change ((c :: s) ++ old ++ post) with (c :: (s ++ old ++ post)).
    rewrite !replace_miss, IH; [done..|]. by apply no_straddle.
Qed.

(** Counting a word [z] that overlaps neither snippet: the output holds
    the occurrences of the input and one more for each replacement. *)
Lemma replace_count z old new :
  old ≠ [] → no_overlap (tail old) old →
  no_overlap (tail z) old → no_overlap (tail z) new →
  length (tail z) ≤ length old → length (tail z) ≤ length new →
  no_overlap old z → no_overlap new z →
  Str.occurrences z old = 0 → Str.occurrences z new = 1 →
  ∀ t, Str.occurrences z (Str.replace old new t)
       = Str.occurrences z t + Str.occurrences old t.
Proof.
  intros Hne Hb Hzo Hzn Hlo Hln Hoz Hnz Hz0 Hz1.
  apply scan_ind with (old := old); [done|..].
  - by rewrite replace_nil.
  - intros s IH. rewrite replace_hit, !occurrences_app, IH, Hz0, Hz1 by done.
    destruct old as [|a o]; [done|]. rewrite occurrences_self by done. lia.
  - intros c s Hmiss IH. rewrite replace_miss by done.
    cbn [Str.occurrences]. rewrite IH, Hmiss, replace_head_stable_cons by done.
    lia.
Qed.

(** The scan cuts the text at occurrences of [old] into pieces free of
    [old] and joins them with [new]. *)
Lemma replace_cuts old new :
  old ≠ [] → ∀ t, replaces_every old new t (Str.replace old new t).
Proof.
  intros Hne. apply scan_ind with (old := old); [done|..].
  - exists [], []. rewrite replace_nil by done. repeat split. by repeat constructor.
  - intros s (g & gs & Hs & Hr & HF). exists [], (g :: gs).
    rewrite replace_hit by done. simpl. rewrite <- Hs, <- Hr.
    repeat split. by constructor.
  - intros c s Hmiss (g & gs & Hs & Hr & HF). exists (c :: g), gs.
    rewrite replace_miss by done.
    assert (c :: s = Str.join old (c :: g) gs ∧
            c :: Str.replace old new s = Str.join new (c :: g) gs) as [Hs' Hr'].
    { rewrite Hr, Hs. by destruct gs. }
    repeat split; [done..|].
    apply Forall_cons in HF as [Hg HF']. constructor; [|done].
    unfold free_of in *. cbn [Str.occurrences]. rewrite Hg.
    destruct (Str.starts_with old (c :: g)) eqn:E; [|done].
    assert (Str.starts_with old (c :: s) = true); [|congruence].
    rewrite Hs'. destruct gs; [done|]. by apply starts_with_app_l.
Qed.

(** For a word without borders the cut is unique: any text obtained
    from such a cut is the output of the scan. *)
Lemma replaces_every_unique old new :
  old ≠ [] → no_overlap (tail old) old →
  ∀ t out, replaces_every old new t out → out = Str.replace old new t.
Proof.
  intros Hne Hb t out (g & gs & -> & -> & HF).
  revert g HF. induction gs as [|g' gs IH]; intros g HF.
  - simpl. apply Forall_cons in HF as [Hg _]. by rewrite replace_free.
  - apply Forall_cons in HF as [Hg HF']. cbn [Str.join].
    rewrite replace_split, replace_free, <- IH by done. done.
Qed.
End replace_theory.

(** * The two snippets of the literal replacement *)

Section snippets.
Lemma old_snippet_nonempty : old_snippet ≠ [].
Proof. discriminate. Qed.

Lemma old_snippet_borderless : no_overlap (tail old_snippet) old_snippet.
Proof. apply no_overlapb_sound. vm_compute. reflexivity. Qed.

Lemma old_tail_new : no_overlap (tail old_snippet) new_snippet.
Proof. apply no_overlapb_sound. vm_compute. reflexivity. Qed.

Lemma new_old : no_overlap new_snippet old_snippet.
Proof. apply no_overlapb_sound. vm_compute. reflexivity. Qed.

Lemma new_free_of_old : free_of old_snippet new_snippet.
Proof. vm_compute. reflexivity. Qed.

Lemma snippet_lengths : length old_snippet ≤ length new_snippet.
Proof. vm_compute. lia. Qed.

Lemma call_tail_old : no_overlap (tail create_call) old_snippet.
Proof. apply no_overlapb_sound. vm_compute. reflexivity. Qed.

Lemma call_tail_new : no_overlap (tail create_call) new_snippet.
Proof. apply no_overlapb_sound. vm_compute. reflexivity. Qed.

Lemma old_call : no_overlap old_snippet create_call.
Proof. apply no_overlapb_sound. vm_compute. reflexivity. Qed.

Lemma new_call : no_overlap new_snippet create_call.
Proof. apply no_overlapb_sound. vm_compute. reflexivity. Qed.

Lemma transform_free t : free_of old_snippet t → transform t = t.
Proof. apply replace_free, old_snippet_nonempty. Qed.

Lemma transform_removes t : free_of old_snippet (transform t).
Proof.
  apply replace_removes;
    auto using old_snippet_nonempty, old_snippet_borderless, old_tail_new,
               new_old, new_free_of_old, snippet_lengths.
Qed.
End snippets.

(** * Runs of the script *)

Section runs.
Implicit Types (w : world) (f : file) (tbl : list rule).

Lemma script_done tbl w f :
  fs w !! target = Some f → readable f = true → writable f = true →
  script tbl w
  = (Done tt,
     World (<[target := File true true (transform (data f))]> (fs w))
           (stdout w ++ notice ++ LF) (stderr w) (argv w) (environ w)).
Proof.
  intros Hf Hr Hw. unfold script, bind, read_text, write_text, print, set_fs.
  rewrite Hf, Hr. cbn. rewrite Hf, Hw. cbn. by rewrite Hr.
Qed.

Lemma script_raised tbl w :
  (∀ f, fs w !! target = Some f → readable f && writable f = false) →
  script tbl w
  = (Raised (match fs w !! target with
             | None => FileNotFoundError
             | Some _ => PermissionError
             end), w).
Proof.
  intros H. unfold script, bind, read_text, write_text.
  destruct (fs w !! target) as [f|] eqn:Hf; [|done].
  specialize (H f eq_refl). destruct (readable f); [|done]. cbn.
  rewrite Hf. simpl in H. by rewrite H.
Qed.

Lemma script_done_inv tbl w w' :
  script tbl w = (Done tt, w') →
  ∃ f, fs w !! target = Some f ∧ readable f = true ∧ writable f = true.
Proof.
  intros H. destruct (fs w !! target) as [f|] eqn:Hf.
  - exists f. destruct (readable f) eqn:Hr, (writable f) eqn:Hw; try done;
      rewrite script_raised in H
        by (intros f0 Hf0; rewrite Hf in Hf0; injection Hf0 as <-; by rewrite Hr, ?Hw);
      by rewrite Hf in H.
  - rewrite script_raised in H by (intros f0 Hf0; by rewrite Hf in Hf0).
    by rewrite Hf in H.
Qed.
End runs.

(** * The claims *)

(** C1 (the rule table is applied, rule by rule, to the text written back).
    The script never applies [fixes]: on a text in which the pattern of the
    GetCurrentUser rule matches, the text is returned and written back as it
    was read, and the rule's replacement is nowhere in it. *)
Theorem rule_table_never_applied :
  transform getCurrentUser_text = getCurrentUser_text
  ∧ free_of getCurrentUser_fixed (transform getCurrentUser_text)
  ∧ written (main (world_of getCurrentUser_text)) = Some getCurrentUser_text.
Proof. repeat split; vm_compute; reflexivity. Qed.

(** C2 (the whole transformation is the single literal replacement).
    Whatever table is bound to [fixes], a run on a readable and writable
    target writes back the text read with every occurrence of the old
    snippet replaced by the new one, and that text is the only one fitting
    this description; the run is the same as with the table of the source. *)
Theorem written_is_literal_replacement tbl w f :
  fs w !! target = Some f → readable f = true → writable f = true →
  ∃ out, written (script tbl w) = Some out
         ∧ replaces_every old_snippet new_snippet (data f) out
         ∧ (∀ out', replaces_every old_snippet new_snippet (data f) out' → out' = out)
         ∧ script tbl w = main w.
Proof.
  intros Hf Hr Hw. exists (transform (data f)). unfold main.
  rewrite !(script_done _ w f) by done. repeat split.
  - unfold written. cbn. by rewrite lookup_insert_eq.
  - apply replace_cuts, old_snippet_nonempty.
  - apply replaces_every_unique;
      auto using old_snippet_nonempty, old_snippet_borderless.
Qed.

Lemma written_is_literal_replacement_witness :
  ∃ out, written (script [] (world_of privacy_text)) = Some out
         ∧ replaces_every old_snippet new_snippet privacy_text out
         ∧ (∀ out', replaces_every old_snippet new_snippet privacy_text out' → out' = out)
         ∧ script [] (world_of privacy_text) = main (world_of privacy_text).
Proof.
  apply (written_is_literal_replacement [] (world_of privacy_text)
           (File true true privacy_text)); reflexivity.
Defined.

(** C3 (the SendOTP return is rewritten to the schema constructor).
    The script leaves a matching [sendOTP] body as it is: the output equals
    the input and holds no [create(SendOTPResponseSchema, ...)]. *)
Theorem sendOTP_left_unchanged :
  transform sendOTP_text = sendOTP_text
  ∧ free_of sendOTP_fixed (transform sendOTP_text).
Proof. split; vm_compute; reflexivity. Qed.

(** C4 (look-ahead picks ListFollowing or ListCloseFriends per occurrence).
    The script rewrites neither [return { users };]: the output equals the
    input and holds neither schema constructor. *)
Theorem users_left_unchanged :
  transform users_text = users_text
  ∧ free_of listFollowing_fixed (transform users_text)
  ∧ free_of listCloseFriends_fixed (transform users_text).
Proof. repeat split; vm_compute; reflexivity. Qed.

(** C5 (the literal fragment is replaced in place).  Wherever the old
    snippet stands in the input, the output has the new snippet in its
    place, between the outputs for the text before and the text after. *)
Theorem snippet_replaced_in_place pre post :
  transform (pre ++ old_snippet ++ post)
  = transform pre ++ new_snippet ++ transform post.
Proof.
  apply replace_split; auto using old_snippet_nonempty, old_snippet_borderless.
Qed.

(** C6 (idempotence).  Transforming the output again gives the output:
    the old snippet no longer occurs after one application, and a second
    run of the script leaves the file system of the first. *)
Theorem transform_idempotent t w :
  transform (transform t) = transform t
  ∧ free_of old_snippet (transform t)
  ∧ fs (main (main w).2).2 = fs (main w).2.
Proof.
  assert (∀ s, transform (transform s) = transform s) as Hidem.
  { intros s. apply transform_free, transform_removes. }
  split; [apply Hidem|]. split; [apply transform_removes|].
  unfold main. destruct (fs w !! target) as [f|] eqn:Hf.
  - destruct (readable f) eqn:Hr, (writable f) eqn:Hw;
      [|rewrite (script_raised _ w)
          by (intros f0 Hf0; rewrite Hf in Hf0; injection Hf0 as <-;
              by rewrite Hr, ?Hw); cbn;
        by rewrite (script_raised _ w)
          by (intros f0 Hf0; rewrite Hf in Hf0; injection Hf0 as <-;
              by rewrite Hr, ?Hw)..].
    rewrite (script_done _ w f) by done. cbn.
    erewrite script_done; [|cbn; apply lookup_insert_eq|done..]. cbn.
    by rewrite Hidem, insert_insert_eq.
  - rewrite (script_raised _ w) by (intros f0 Hf0; by rewrite Hf in Hf0). cbn.
    by rewrite (script_raised _ w) by (intros f0 Hf0; by rewrite Hf in Hf0).
Qed.

(** C7, as stated (the count of [return create(] in the output is the
    number of rules with a match), fails: on eleven copies of the marker
    the output holds eleven occurrences, more than the table has rules,
    whatever notion of matching decides which rules had a match. *)
Lemma eleven_calls_exceed_table :
  ¬ ∃ has_match : rule → text → bool,
      Str.occurrences create_call (transform eleven_calls)
      = rules_matched has_match eleven_calls.
Proof.
  intros [has_match H].
  assert (rules_matched has_match eleven_calls ≤ length fixes) as Hle
    by apply length_filter.
  rewrite <- H in Hle. vm_compute in Hle. lia.
Qed.

(** C7, amended: the output holds the occurrences of [return create(] that
    the input held and one more for every occurrence of the old snippet
    in the input. *)
Theorem create_call_count t :
  Str.occurrences create_call (transform t)
  = Str.occurrences create_call t + Str.occurrences old_snippet t.
Proof.
  apply replace_count;
    auto using old_snippet_nonempty, old_snippet_borderless, call_tail_old,
               call_tail_new, old_call, new_call;
    vm_compute; (reflexivity || lia).
Qed.

(** C8 (a rule without a match is silent and the run still succeeds).
    On a readable and writable target every rule of the table, matched or
    not, can be dropped without changing the run; the run completes,
    writes the file and prints the notice; the pieces of the text outside
    the replaced snippets are kept as they are, and a text without the old
    snippet is written back unchanged. *)
Theorem unmatched_rule_is_silent i w f :
  fs w !! target = Some f → readable f = true → writable f = true →
  script (delete i fixes) w = main w
  ∧ ∃ w', main w = (Done tt, w')
          ∧ written (main w) = Some (transform (data f))
          ∧ stdout w' = stdout w ++ notice ++ LF
          ∧ replaces_every old_snippet new_snippet (data f) (transform (data f))
          ∧ (free_of old_snippet (data f) → transform (data f) = data f).
Proof.
  intros Hf Hr Hw. unfold main. rewrite !(script_done _ w f) by done.
  split; [done|]. eexists. split; [done|]. repeat split.
  - unfold written. cbn. by rewrite lookup_insert_eq.
  - apply replace_cuts, old_snippet_nonempty.
  - apply transform_free.
Qed.

Lemma unmatched_rule_is_silent_witness :
  script (delete 6 fixes) (world_of plain_text) = main (world_of plain_text)
  ∧ ∃ w', main (world_of plain_text) = (Done tt, w')
          ∧ written (main (world_of plain_text)) = Some (transform plain_text)
          ∧ stdout w' = notice ++ LF
          ∧ replaces_every old_snippet new_snippet plain_text (transform plain_text)
          ∧ (free_of old_snippet plain_text → transform plain_text = plain_text).
Proof.
  apply (unmatched_rule_is_silent 6 (world_of plain_text)
           (File true true plain_text)); reflexivity.
Defined.

(** C9 (I/O failures are fatal and unhandled).  When the target is
    missing, unreadable or not writable, the run ends with the exception
    raised by the failing step, an [IOError], and the world is as it was:
    nothing was written and nothing printed.  When the target is missing
    or unreadable it is the load step that raises it. *)
Theorem io_failure_is_fatal w :
  (∀ f, fs w !! target = Some f → readable f && writable f = false) →
  ∃ e, is_IOError e = true
       ∧ main w = (Raised e, w)
       ∧ ((∀ f, fs w !! target = Some f → readable f = false) →
          read_text target w = (Raised e, w)).
Proof.
  intros H. eexists. split; [|split; [by apply script_raised|]].
  - by destruct (fs w !! target).
  - intros Hr. unfold read_text. destruct (fs w !! target) as [f|]; [|done].
    by rewrite (Hr f eq_refl).
Qed.

Lemma io_failure_is_fatal_witness :
  ∃ e, is_IOError e = true
       ∧ main empty_world = (Raised e, empty_world)
       ∧ ((∀ f, fs empty_world !! target = Some f → readable f = false) →
          read_text target empty_world = (Raised e, empty_world)).
Proof. apply (io_failure_is_fatal empty_world). intros f Hf. discriminate Hf. Defined.

(** C10 (effects of a successful run).  A run that completes has
    overwritten the target with the transformed text and appended the
    notice to standard output; every other file, standard error, the
    arguments and the environment are as before, and the run is the same
    under any other arguments and environment. *)
Theorem successful_run_effects w w' :
  main w = (Done tt, w') →
  (∃ f, fs w !! target = Some f
        ∧ w' = World (<[target := File true true (transform (data f))]> (fs w))
                     (stdout w ++ notice ++ LF) (stderr w) (argv w) (environ w))
  ∧ (∀ p, p ≠ target → fs w' !! p = fs w !! p)
  ∧ stderr w' = stderr w ∧ argv w' = argv w ∧ environ w' = environ w
  ∧ (∀ a e, main (World (fs w) (stdout w) (stderr w) a e)
            = (Done tt, World (fs w') (stdout w') (stderr w') a e)).
Proof.
  intros H. destruct (script_done_inv _ _ _ H) as (f & Hf & Hr & Hw).
  unfold main in *. rewrite (script_done _ w f) in H by done.
  injection H as <-. cbn. repeat split.
  - by exists f.
  - intros p Hp. by rewrite lookup_insert_ne.
  - intros a e. by rewrite (script_done _ _ f).
Qed.

Lemma successful_run_effects_witness :
  (∃ f, fs (world_of plain_text) !! target = Some f
        ∧ world_after plain_text
          = World (<[target := File true true (transform (data f))]>
                     (fs (world_of plain_text)))
                  (stdout (world_of plain_text) ++ notice ++ LF)
                  (stderr (world_of plain_text)) (argv (world_of plain_text))
                  (environ (world_of plain_text)))
  ∧ (∀ p, p ≠ target →
          fs (world_after plain_text) !! p = fs (world_of plain_text) !! p)
  ∧ stderr (world_after plain_text) = stderr (world_of plain_text)
  ∧ argv (world_after plain_text) = argv (world_of plain_text)
  ∧ environ (world_after plain_text) = environ (world_of plain_text)
  ∧ (∀ a e, main (World (fs (world_of plain_text)) (stdout (world_of plain_text))
                        (stderr (world_of plain_text)) a e)
            = (Done tt, World (fs (world_after plain_text))
                              (stdout (world_after plain_text))
                              (stderr (world_after plain_text)) a e)).
Proof.
  apply (successful_run_effects (world_of plain_text) (world_after plain_text)).
  vm_compute. reflexivity.
Defined.

(** * Further properties of the literal replacement *)

Section replace_measures.
Implicit Types z s t pre post old new : text.

Lemma count_char_app c s t : count_char c (s ++ t) = count_char c s + count_char c t.
Proof.
  unfold count_char. induction s as [|x s IH]; [done|].
  change ((x :: s) ++ t) with (x :: (s ++ t)). cbn [Str.occurrences].
  rewrite IH. simpl. lia.
Qed.

(** Every replacement trades the characters of [old] for those of [new]. *)
Lemma replace_count_char c old new :
  old ≠ [] → no_overlap (tail old) old →
  ∀ t, count_char c (Str.replace old new t) + count_char c old * Str.occurrences old t
       = count_char c t + count_char c new * Str.occurrences old t.
Proof.
  intros Hne Hb. apply scan_ind with (old := old); [done|..].
  - rewrite replace_nil by done. simpl. lia.
  - intros s IH. rewrite replace_hit, !count_char_app by done.
    destruct old as [|a o]; [done|]. rewrite occurrences_self by done. nia.
  - intros x s Hmiss IH. rewrite replace_miss by done.
    change (x :: Str.replace old new s) with ([x] ++ Str.replace old new s).
    change (x :: s) with ([x] ++ s) at 2. rewrite !count_char_app.
    change ([x] ++ s) with (x :: s). cbn [Str.occurrences]. rewrite Hmiss. lia.
Qed.

Lemma replace_length old new :
  old ≠ [] → no_overlap (tail old) old →
  ∀ t, length (Str.replace old new t) + length old * Str.occurrences old t
       = length t + length new * Str.occurrences old t.
Proof.
  intros Hne Hb. apply scan_ind with (old := old); [done|..].
  - rewrite replace_nil by done. simpl. lia.
  - intros s IH. rewrite replace_hit, !length_app by done.
    destruct old as [|a o]; [done|]. rewrite occurrences_self by done. nia.
  - intros x s Hmiss IH. rewrite replace_miss by done.
    cbn [Str.occurrences length]. rewrite Hmiss. lia.
Qed.

(** The scan passes over a word that neither holds [old] nor lets an
    occurrence of [old] run out of it. *)
Lemma replace_through old new z post :
  old ≠ [] → free_of old z → no_overlap z old →
  Str.replace old new (z ++ post) = z ++ Str.replace old new post.
Proof.
  intros Hne. unfold free_of. induction z as [|c z IH]; [done|].
  cbn [Str.occurrences]. intros Hf Ho.
  destruct (Str.starts_with old (c :: z)) eqn:E; [done|].
  assert (Str.starts_with old ((c :: z) ++ post) = false) as Hmiss.
  { rewrite starts_with_past; [done|]. apply (Ho 0). simpl. lia. }
  change ((c :: z) ++ post) with (c :: (z ++ post)) in *.
  rewrite replace_miss by done.
  rewrite IH; [done | lia | by eapply no_overlap_tail].
Qed.

Lemma no_reach old z (c : ascii) s post :
  no_overlap (tail old) z → length old ≤ length z →
  Str.starts_with old (c :: s) = false →
  Str.starts_with old ((c :: s) ++ z ++ post) = false.
Proof.
  intros Hoz Hlen Hmiss.
  destruct (Str.starts_with old ((c :: s) ++ z ++ post)) eqn:E; [|done].
  destruct (starts_with_app_cases _ _ _ E) as [?|[Hp Hl]]; [congruence|].
  exfalso. pose proof (starts_with_split _ _ Hp) as Ho.
  pose proof (starts_with_split _ _ E) as Ht.
  set (r := drop (length (c :: s)) old) in *.
  set (rest := drop (length old) ((c :: s) ++ z ++ post)) in *.
  assert (z ++ post = r ++ rest) as Hz.
  { apply (app_inv_head (c :: s)). rewrite Ht at 1. rewrite Ho at 1.
    by rewrite <- app_assoc. }
  assert (Str.starts_with r z = true) as Hr.
  { rewrite <- (starts_with_short _ z post)
      by (subst r; rewrite length_drop; lia).
    rewrite Hz. apply starts_with_app. }
  subst r. destruct old as [|a o]; [simpl in Hl; lia|].
  simpl in Hr, Hoz, Hl. rewrite Hoz in Hr by lia. done.
Qed.

(** A word free of [old] that [old] cannot overlap on either side stays
    where it is, between the outputs for what precedes and follows. *)
Lemma replace_keeps old new z :
  old ≠ [] → free_of old z → no_overlap z old →
  no_overlap (tail old) z → length old ≤ length z →
  ∀ pre post,
    Str.replace old new (pre ++ z ++ post)
    = Str.replace old new pre ++ z ++ Str.replace old new post.
Proof.
  intros Hne Hf Hzo Hoz Hlen pre post. revert pre.
  apply scan_ind with (old := old); [done|..].
  - by rewrite replace_nil, !app_nil_l, replace_through.
  - intros s IH. rewrite <- !app_assoc, !replace_hit, IH by done.
    by rewrite <- !app_assoc.
  - intros c s Hmiss IH.
    change ((c :: s) ++ z ++ post) with (c :: (s ++ z ++ post)).
    rewrite !replace_miss, IH; [done..|]. by apply no_reach.
Qed.
End replace_measures.

Section more_runs.
Implicit Types (w : world) (f : file).

(** A run either completes, having rewritten a readable and writable
    target and printed the notice, or raises and leaves the world as is. *)
Lemma main_cases w :
  (∃ f, fs w !! target = Some f ∧ readable f = true ∧ writable f = true
        ∧ main w = (Done tt,
                    World (<[target := File true true (transform (data f))]> (fs w))
                          (stdout w ++ notice ++ LF) (stderr w) (argv w) (environ w)))
  ∨ ((∀ f, fs w !! target = Some f → readable f && writable f = false)
     ∧ ∃ e, main w = (Raised e, w)).
Proof.
  destruct (fs w !! target) as [f|] eqn:Hf.
  - destruct (readable f && writable f) eqn:Hrw.
    + left. exists f. apply andb_true_iff in Hrw as [Hr Hw].
      repeat split; [done..|]. by apply script_done.
    + right. assert (∀ f0, fs w !! target = Some f0 →
                           readable f0 && writable f0 = false) as H.
      { intros f0 Hf0. rewrite Hf in Hf0. by injection Hf0 as <-. }
      rewrite <- Hf. split; [done|]. eexists. by apply script_raised.
  - right. assert (∀ f0, fs w !! target = Some f0 →
                         readable f0 && writable f0 = false) as H.
    { intros f0 Hf0. by rewrite Hf in Hf0. }
    rewrite <- Hf. split; [done|]. eexists. by apply script_raised.
Qed.

Lemma notice_not_empty (out : text) : out ≠ out ++ notice ++ LF.
Proof.
  intros H. apply (f_equal length) in H. rewrite !length_app in H.
  simpl in H. lia.
Qed.
End more_runs.

(** * Further properties *)

(** X1.  The output is longer than the input by 45 characters for every
    occurrence of the old snippet. *)
Theorem transform_length t :
  length (transform t) = length t + 45 * Str.occurrences old_snippet t.
Proof.
  pose proof (replace_length old_snippet new_snippet old_snippet_nonempty
                old_snippet_borderless t) as H.
  unfold transform.
  change (length old_snippet) with 57 in H.
  change (length new_snippet) with 102 in H. lia.
Qed.

(** X2.  The text is changed exactly when the old snippet occurs in it. *)
Theorem transform_changes_iff t :
  transform t = t ↔ free_of old_snippet t.
Proof.
  split; [|apply transform_free]. intros Heq.
  pose proof (replace_length old_snippet new_snippet old_snippet_nonempty
                old_snippet_borderless t) as H.
  fold (transform t) in H. rewrite Heq in H.
  change (length old_snippet) with 57 in H.
  change (length new_snippet) with 102 in H. unfold free_of. lia.
Qed.

(** X3.  A snippet that is already in its new form is carried over in
    place; so a text with the new snippet and the text with the old one
    at the same place have the same output. *)
Theorem fixed_snippet_kept pre post :
  transform (pre ++ new_snippet ++ post)
  = transform pre ++ new_snippet ++ transform post
  ∧ transform (pre ++ new_snippet ++ post)
    = transform (pre ++ old_snippet ++ post).
Proof.
  assert (transform (pre ++ new_snippet ++ post)
          = transform pre ++ new_snippet ++ transform post) as H.
  { apply replace_keeps;
      auto using old_snippet_nonempty, new_free_of_old, new_old, old_tail_new,
                 snippet_lengths. }
  split; [done|]. rewrite H. symmetry.
  apply replace_split; auto using old_snippet_nonempty, old_snippet_borderless.
Qed.

(** X4.  The replacement neither adds nor removes a line. *)
Theorem line_count_preserved t :
  count_char (ascii_of_nat 10) (transform t) = count_char (ascii_of_nat 10) t.
Proof.
  pose proof (replace_count_char (ascii_of_nat 10) old_snippet new_snippet
                old_snippet_nonempty old_snippet_borderless t) as H.
  fold (transform t) in H.
  change (count_char (ascii_of_nat 10) old_snippet) with 3 in H.
  change (count_char (ascii_of_nat 10) new_snippet) with 3 in H. lia.
Qed.

(** X5.  The replacement keeps brackets balanced: the numbers of braces
    are unchanged, and every replaced occurrence adds one opening and one
    closing parenthesis. *)
Theorem brackets_balanced t :
  count_char "{" (transform t) = count_char "{" t
  ∧ count_char "}" (transform t) = count_char "}" t
  ∧ count_char "(" (transform t)
    = count_char "(" t + Str.occurrences old_snippet t
  ∧ count_char ")" (transform t)
    = count_char ")" t + Str.occurrences old_snippet t.
Proof.
  pose proof (fun c => replace_count_char c old_snippet new_snippet
                old_snippet_nonempty old_snippet_borderless t) as H.
  fold (transform t) in H.
  pose proof (H "{"%char) as H1. pose proof (H "}"%char) as H2.
  pose proof (H "("%char) as H3. pose proof (H ")"%char) as H4.
  change (count_char "{" old_snippet) with 1 in H1.
  change (count_char "{" new_snippet) with 1 in H1.
  change (count_char "}" old_snippet) with 2 in H2.
  change (count_char "}" new_snippet) with 2 in H2.
  change (count_char "(" old_snippet) with 1 in H3.
  change (count_char "(" new_snippet) with 2 in H3.
  change (count_char ")" old_snippet) with 0 in H4.
  change (count_char ")" new_snippet) with 1 in H4. lia.
Qed.

(** X6.  A run completes exactly when the target exists and is readable
    and writable, and the notice is printed exactly when the run
    completes. *)
Theorem run_succeeds_iff w :
  ((main w).1 = Done tt
   ↔ ∃ f, fs w !! target = Some f ∧ readable f = true ∧ writable f = true)
  ∧ ((main w).1 = Done tt ↔ stdout (main w).2 = stdout w ++ notice ++ LF).
Proof.
  destruct (main_cases w) as [(f & Hf & Hr & Hw & ->)|[Hno [e ->]]]; cbn.
  - split; split; try done. intros _. by exists f.
  - split; split; try done.
    + intros (f & Hf & Hr & Hw). specialize (Hno f Hf). by rewrite Hr, Hw in Hno.
    + intros H. by apply notice_not_empty in H.
Qed.


(** X8.  A second run ends as the first did, with the same exception or
    completed, and prints again what the first printed. *)
Theorem rerun_same_outcome w :
  (main (main w).2).1 = (main w).1
  ∧ ∃ out, stdout (main w).2 = stdout w ++ out
           ∧ stdout (main (main w).2).2 = stdout w ++ out ++ out.
Proof.
  destruct (main_cases w) as [(f & Hf & Hr & Hw & Hm)|[_ [e Hm]]]; rewrite Hm; cbn.
  - unfold main. erewrite script_done; [|cbn; apply lookup_insert_eq|done..].
    cbn. split; [done|]. exists (notice ++ LF).
    split; [done|]. by rewrite <- !app_assoc.
  - rewrite Hm. cbn. split; [done|]. exists []. by rewrite !app_nil_r.
Qed.
